(** * A shallow embedding of [TLCA_ACR_Cache] (src/cache_replacement.py)

    Python floats are IEEE-754 binary64 numbers, embedded as Rocq's primitive
    floats.  The object's dictionaries are association lists in insertion
    order (the order in which [for key in self.cache] visits them).  Every
    call of [time.time()] reads a host clock [clock] at a counter [tick] that
    the state carries, and [time.localtime().tm_hour] reads the same clock
    through [hour_of].  A method that raises leaves behind the state it had
    reached, as a Python exception does. *)

From Stdlib Require Import List ZArith Bool Lia String PrimFloat Uint63.
Import ListNotations.

Open Scope Z_scope.
#[local] Set Warnings "-inexact-float".

(** ** Dictionaries with string keys, in insertion order *)
Module Dict.

Definition t (A : Type) := list (string * A).

Fixpoint get {A} (k : string) (d : t A) : option A :=
  match d with
  | [] => None
  | (k', v) :: d' => if String.eqb k k' then Some v else get k d'
  end.

Definition mem {A} (k : string) (d : t A) : bool :=
  match get k d with Some _ => true | None => false end.

(** [d[k] = v]: an existing key keeps its place, a new key goes last. *)
Fixpoint set {A} (k : string) (v : A) (d : t A) : t A :=
  match d with
  | [] => [(k, v)]
  | (k', v') :: d' => if String.eqb k k' then (k, v) :: d' else (k', v') :: set k v d'
  end.

(** [del d[k]] / [d.pop(k, None)] *)
Definition del {A} (k : string) (d : t A) : t A :=
  filter (fun p => negb (String.eqb (fst p) k)) d.

Definition keys {A} (d : t A) : list string := map fst d.

End Dict.

(** [float(n)] for a Python int; exact for |n| < 2^63, the range of an
    access count. *)
Definition float_of_Z (z : Z) : float :=
  if z <? 0 then PrimFloat.opp (of_uint63 (Uint63.of_Z (- z)))
  else of_uint63 (Uint63.of_Z z).

(** ** The cache object *)

Record config (V : Type) := mk_config {
  capacity : Z;
  alpha : float;
  beta : float;
  gamma : float;
  delta : float;
  epsilon : float;
  context_fn : unit -> float;
  time_fn : Z -> float;
  loc_fn : float -> float -> float
}.

Record St (V : Type) := mk_st {
  cfg : config V;
  cache : Dict.t (V * float);          (* key -> (value, insertion_time) *)
  access_freq : Dict.t Z;              (* a defaultdict(int) *)
  last_access : Dict.t float;
  tick : nat                           (* clock reads so far *)
}.

Arguments mk_config {V}.
Arguments capacity {V}. Arguments alpha {V}. Arguments beta {V}.
Arguments gamma {V}. Arguments delta {V}. Arguments epsilon {V}.
Arguments context_fn {V}. Arguments time_fn {V}. Arguments loc_fn {V}.
Arguments mk_st {V}.
Arguments cfg {V}. Arguments cache {V}. Arguments access_freq {V}.
Arguments last_access {V}. Arguments tick {V}.

Inductive exn := KeyError | ZeroDivisionError | ValueError.

Inductive res (A : Type) := Ok (a : A) | Raise (e : exn).
Arguments Ok {A}. Arguments Raise {A}.

(** [access_freq[k]] as the defaultdict answers it, without its side effect *)
Definition freq_of {V} (k : string) (s : St V) : Z :=
  match Dict.get k (access_freq s) with Some n => n | None => 0 end.

Module TLCA.

Section Cache.

Variable V : Type.
(** The host's wall clock: the value of the n-th call of [time.time()]. *)
Variable clock : nat -> float.
(** [time.localtime(x).tm_hour] *)
Variable hour_of : float -> Z.

(** *** Exceptions and state *)

Definition M (A : Type) := St V -> res A * St V.

Definition ret {A} (a : A) : M A := fun s => (Ok a, s).

Definition bind {A B} (m : M A) (f : A -> M B) : M B :=
  fun s => match m s with
           | (Ok a, s') => f a s'
           | (Raise e, s') => (Raise e, s')
           end.

Definition throw {A} (e : exn) : M A := fun s => (Raise e, s).
Definition gets {A} (f : St V -> A) : M A := fun s => (Ok (f s), s).
Definition modify (f : St V -> St V) : M unit := fun s => (Ok tt, f s).

Local Notation "x <- c1 ;; c2" := (bind c1 (fun x => c2))
  (at level 61, c1 at next level, right associativity).
Local Notation "c1 ;; c2" := (bind c1 (fun _ => c2))
  (at level 61, right associativity).

Definition set_cache (d : Dict.t (V * float)) (s : St V) : St V :=
  mk_st (cfg s) d (access_freq s) (last_access s) (tick s).
Definition set_freq (d : Dict.t Z) (s : St V) : St V :=
  mk_st (cfg s) (cache s) d (last_access s) (tick s).
Definition set_last (d : Dict.t float) (s : St V) : St V :=
  mk_st (cfg s) (cache s) (access_freq s) d (tick s).
Definition set_cfg (c : config V) (s : St V) : St V :=
  mk_st c (cache s) (access_freq s) (last_access s) (tick s).

(** [time.time()] *)
Definition time_time : M float :=
  fun s => (Ok (clock (tick s)),
            mk_st (cfg s) (cache s) (access_freq s) (last_access s) (S (tick s))).

(** [time.localtime().tm_hour] *)
Definition localtime_hour : M Z :=
  x <- time_time ;; ret (hour_of x).

(** [self.access_freq[key]]: a missing key is inserted with 0 first. *)
Definition freq_getitem (key : string) : M Z :=
  fun s => match Dict.get key (access_freq s) with
           | Some n => (Ok n, s)
           | None => (Ok 0, set_freq (access_freq s ++ [(key, 0)]) s)
           end.

(** [self.last_access[key]] *)
Definition last_getitem (key : string) : M float :=
  fun s => match Dict.get key (last_access s) with
           | Some x => (Ok x, s)
           | None => (Raise KeyError, s)
           end.

(** [self.access_freq[key] += 1] *)
Definition freq_incr (key : string) : M unit :=
  n <- freq_getitem key ;;
  modify (fun s => set_freq (Dict.set key (n + 1) (access_freq s)) s).

(** [t or time.localtime().tm_hour]: an int hint is falsy when it is 0. *)
Definition t_or_hour (t : option Z) : M Z :=
  match t with
  | Some h => if h =? 0 then localtime_hour else ret h
  | None => localtime_hour
  end.

Definition tie_tolerance : float := 1e-5%float.

(** [compute_score(key, t, loc)], lines 45-62 *)
Definition compute_score (key : string) (t : option Z) (loc : option (float * float))
  : M float :=
  freq <- freq_getitem key ;;
  now <- time_time ;;
  la <- last_getitem key ;;
  let recency := (now - la)%float in
  c <- gets cfg ;;
  let context_val := context_fn c tt in
  h <- t_or_hour t ;;
  let time_weight := time_fn c h in
  let '(x, y) := match loc with Some p => p | None => (0%float, 0%float) end in
  let loc_weight := loc_fn c x y in
  let den := (recency + 1e-5)%float in
  if PrimFloat.is_zero den then throw ZeroDivisionError
  else ret (alpha c * float_of_Z freq
            + beta c * (1 / den)
            + gamma c * context_val
            + delta c * time_weight
            + epsilon c * loc_weight)%float.

(** [get(key, t, loc)], lines 64-72; [None] is Python's [None]. *)
Definition get (key : string) (t : option Z) (loc : option (float * float))
  : M (option V) :=
  d <- gets cache ;;
  if Dict.mem key d then
    freq_incr key ;;
    now <- time_time ;;
    modify (fun s => set_last (Dict.set key now (last_access s)) s) ;;
    d' <- gets cache ;;
    match Dict.get key d' with
    | Some (v, _) => ret (Some v)
    | None => throw KeyError
    end
  else ret None.

(** The scan of [evict], lines 95-101, from the accumulator
    [(min_score, tied_keys)]. *)
Fixpoint scan (t : option Z) (loc : option (float * float)) (ks : list string)
  (acc : float * list string) : M (float * list string) :=
  match ks with
  | [] => ret acc
  | key :: ks' =>
      score <- compute_score key t loc ;;
      let '(min_score, tied_keys) := acc in
      if (score <? min_score)%float then scan t loc ks' (score, [key])
      else if (PrimFloat.abs (score - min_score) <? tie_tolerance)%float
      then scan t loc ks' (min_score, tied_keys ++ [key])
      else scan t loc ks' (min_score, tied_keys)
  end.

(** [max(tied_keys, key=lambda k: self.last_access[k])]: the first item
    whose key is strictly greater than every earlier one. *)
Fixpoint max_from (best : string) (bestv : float) (ks : list string) : M string :=
  match ks with
  | [] => ret best
  | k :: ks' =>
      v <- last_getitem k ;;
      if (bestv <? v)%float then max_from k v ks' else max_from best bestv ks'
  end.

Definition max_by_last (ks : list string) : M string :=
  match ks with
  | [] => throw ValueError
  | k :: ks' => v <- last_getitem k ;; max_from k v ks'
  end.

(** [del self.cache[key]] *)
Definition cache_delitem (key : string) : M unit :=
  fun s => if Dict.mem key (cache s)
           then (Ok tt, set_cache (Dict.del key (cache s)) s)
           else (Raise KeyError, s).

(** [evict(t, loc)], lines 86-108 *)
Definition evict (t : option Z) (loc : option (float * float)) : M unit :=
  ks <- gets (fun s => Dict.keys (cache s)) ;;
  acc <- scan t loc ks (PrimFloat.infinity, []) ;;
  let tied_keys := snd acc in
  match tied_keys with
  | [] => ret tt
  | _ :: _ =>
      key_to_evict <- max_by_last tied_keys ;;
      cache_delitem key_to_evict ;;
      modify (fun s => set_freq (Dict.del key_to_evict (access_freq s)) s) ;;
      modify (fun s => set_last (Dict.del key_to_evict (last_access s)) s)
  end.

(** Lines 81-84 of [put]: store the value and touch the key. *)
Definition put_store (key : string) (value : V) : M unit :=
  now <- time_time ;;
  modify (fun s => set_cache (Dict.set key (value, now) (cache s)) s) ;;
  freq_incr key ;;
  now' <- time_time ;;
  modify (fun s => set_last (Dict.set key now' (last_access s)) s).

(** [put(key, value, t, loc)], lines 74-84 *)
Definition put (key : string) (value : V) (t : option Z) (loc : option (float * float))
  : M unit :=
  s <- gets (fun s => s) ;;
  (if negb (Dict.mem key (cache s))
      && (capacity (cfg s) <=? Z.of_nat (List.length (cache s)))
   then evict t loc else ret tt) ;;
  put_store key value.

(** [current_keys()], lines 110-114 (the spec's [list_keys]) *)
Definition current_keys : M (list string) := gets (fun s => Dict.keys (cache s)).

(** [set_context_functions(context_fn, time_fn, loc_fn)], lines 34-43;
    a function object is always truthy. *)
Definition set_context_functions (cf : option (unit -> float)) (tf : option (Z -> float))
  (lf : option (float -> float -> float)) : M unit :=
  modify (fun s =>
    let c := cfg s in
    set_cfg (mk_config (capacity c) (alpha c) (beta c) (gamma c) (delta c) (epsilon c)
               (match cf with Some f => f | None => context_fn c end)
               (match tf with Some f => f | None => time_fn c end)
               (match lf with Some f => f | None => loc_fn c end)) s).

(** [TLCA_ACR_Cache(capacity, alpha, beta, gamma, delta, epsilon)], with the
    clock at [n] reads. *)
Definition init (cap : Z) (a b g d e : float) (n : nat) : St V :=
  mk_st (mk_config cap a b g d e (fun _ => 1%float) (fun _ => 1%float)
                   (fun _ _ => 1%float)) [] [] [] n.

(** *** Sequences of public calls *)

Inductive op :=
| OpGet (key : string) (t : option Z) (loc : option (float * float))
| OpPut (key : string) (value : V) (t : option Z) (loc : option (float * float))
| OpEvict (t : option Z) (loc : option (float * float))
| OpKeys
| OpSetFns (cf : option (unit -> float)) (tf : option (Z -> float))
           (lf : option (float -> float -> float)).

(** The state after one call, whether it returned or raised. *)
Definition run_op (o : op) (s : St V) : St V :=
  match o with
  | OpGet k t loc => snd (get k t loc s)
  | OpPut k v t loc => snd (put k v t loc s)
  | OpEvict t loc => snd (evict t loc s)
  | OpKeys => snd (current_keys s)
  | OpSetFns cf tf lf => snd (set_context_functions cf tf lf s)
  end.

Definition exec (ops : list op) (s : St V) : St V := fold_left (fun s o => run_op o s) ops s.

Definition reachable (s : St V) : Prop :=
  exists cap a b g d e n ops, s = exec ops (init cap a b g d e n).

End Cache.

End TLCA.

Import TLCA.


(** ** Concrete runs at the failing inputs *)
Module Runs.

Local Open Scope string_scope.

Definition clk (n : nat) : float := float_of_Z (Z.of_nat n).
Definition hour_noon (_ : float) : Z := 12.

(** [TLCA_ACR_Cache(1, alpha=1e308)] after [put("A", "a")] and [get("A")]:
    the frequency term of "A" is [1e308 * 2], which overflows to [inf]. *)
Definition big_alpha : St string :=
  exec string clk hour_noon
    [OpPut string "A" "a" None None; OpGet string "A" None None]
    (init string 1 1e308 1 1 1 1 0).

(** [TLCA_ACR_Cache(2, alpha=8e-6, beta=0.0)] after [put("A")], [put("B")],
    [get("A")]: the scores of "A" and "B" differ by about [8e-6]. *)
Definition near_tie : St string :=
  exec string clk hour_noon
    [OpPut string "A" "a" None None; OpPut string "B" "b" None None;
     OpGet string "A" None None]
    (init string 2 8e-6 0 1 1 1 0).

Definition score_at (s : St string) (k : string) : res float :=
  fst (compute_score string clk hour_noon k None None s).

End Runs.

(** ** The scenarios of [run_tests], lines 116-236 *)
Module Scenarios.

Local Open Scope string_scope.

(** A clock that advances 10 ms per read, and a fixed local hour. *)
Definition clk (n : nat) : float := (float_of_Z (Z.of_nat n) * 0.01)%float.
Definition hour_noon (_ : float) : Z := 12.

Definition sf : float * float := (37.77%float, (-122.42)%float).

Definition test1 : list (op string) :=
  [OpSetFns string (Some (fun _ => 1%float))
     (Some (fun t => if (8 <=? t)%Z && (t <=? 10)%Z then 2%float else 0.5%float))
     (Some (fun x y => if (x =? fst sf)%float && (y =? snd sf)%float then 2%float
                       else 0.5%float));
   OpPut string "A" "Apple" (Some 9) (Some sf);
   OpPut string "B" "Banana" (Some 22) (Some (40.71%float, (-74.00)%float));
   OpGet string "A" (Some 9) (Some sf);
   OpGet string "A" (Some 9) (Some sf);
   OpPut string "C" "Cherry" (Some 10) (Some sf)].

Example test1_keys :
  Dict.keys (cache (exec string clk hour_noon test1 (init string 2 2 3 1 1 1 0)))
  = ["A"; "C"]%string.
Proof. vm_compute. reflexivity. Qed.

Definition fns2 : op string :=
  OpSetFns string (Some (fun _ => 1%float))
    (Some (fun t => if (t =? 12)%Z then 2%float else 0.1%float))
    (Some (fun x y => if (x =? 0)%float && (y =? 0)%float then 5%float else 0.1%float)).

Definition origin : float * float := (0%float, 0%float).

Definition test2 : list (op string) :=
  [fns2;
   OpPut string "X" "Xray" (Some 12) (Some origin);
   OpPut string "Y" "Yam" (Some 1) (Some (99%float, 99%float));
   OpPut string "Z" "Zebra" (Some 12) (Some origin)].

Example test2_keys :
  Dict.keys (cache (exec string clk hour_noon test2 (init string 2 1 0 1 1 1 0)))
  = ["X"; "Z"]%string.
Proof. vm_compute. reflexivity. Qed.

Example test3_keys :
  Dict.keys (cache (exec string clk hour_noon
                      (test2 ++ [OpPut string "W" "Wing" (Some 12) (Some origin)])
                      (init string 2 1 0 1 1 1 0)))
  = ["X"; "W"]%string.
Proof. vm_compute. reflexivity. Qed.

End Scenarios.

(** ** Dictionary lemmas *)
Module DictFacts.

Lemma eqb_refl' k : String.eqb k k = true.
Proof. apply String.eqb_refl. Qed.

Lemma eqb_neq k k' : k <> k' -> String.eqb k k' = false.
Proof. intros H. apply String.eqb_neq. exact H. Qed.

Lemma get_set_same {A} k (v : A) d : Dict.get k (Dict.set k v d) = Some v.
Proof.
  induction d as [|[k' v'] d IH]; simpl.
  - rewrite eqb_refl'. reflexivity.
  - destruct (String.eqb k k') eqn:E; simpl.
    + rewrite eqb_refl'. reflexivity.
    + rewrite E. exact IH.
Qed.

Lemma get_set_other {A} k k' (v : A) d :
  k' <> k -> Dict.get k' (Dict.set k v d) = Dict.get k' d.
Proof.
  intros Hne. induction d as [|[k0 v0] d IH]; simpl.
  - rewrite (eqb_neq _ _ Hne). reflexivity.
  - destruct (String.eqb k k0) eqn:E; simpl.
    + apply String.eqb_eq in E. subst k0. rewrite (eqb_neq _ _ Hne). reflexivity.
    + destruct (String.eqb k' k0); [reflexivity | exact IH].
Qed.

Lemma keys_set_mem {A} k (v : A) d :
  Dict.mem k d = true -> Dict.keys (Dict.set k v d) = Dict.keys d.
Proof.
  unfold Dict.mem. induction d as [|[k0 v0] d IH]; simpl; [discriminate|].
  destruct (String.eqb k k0) eqn:E; simpl.
  - apply String.eqb_eq in E. subst k0. reflexivity.
  - intros H. f_equal. exact (IH H).
Qed.

Lemma get_app_other {A} k k' (v : A) d :
  k' <> k -> Dict.get k' (d ++ [(k, v)]) = Dict.get k' d.
Proof.
  intros Hne. induction d as [|[k0 v0] d IH]; simpl.
  - rewrite (eqb_neq _ _ Hne). reflexivity.
  - destruct (String.eqb k' k0); [reflexivity | exact IH].
Qed.

Lemma get_app_none {A} k (v : A) d :
  Dict.get k d = None -> Dict.get k (d ++ [(k, v)]) = Some v.
Proof.
  induction d as [|[k0 v0] d IH]; simpl.
  - intros _. rewrite eqb_refl'. reflexivity.
  - destruct (String.eqb k k0); [discriminate | exact IH].
Qed.

Lemma get_del_same {A} k (d : Dict.t A) : Dict.get k (Dict.del k d) = None.
Proof.
  unfold Dict.del. induction d as [|[k0 v0] d IH]; simpl; [reflexivity|].
  destruct (String.eqb k0 k) eqn:E; simpl.
  - exact IH.
  - rewrite String.eqb_sym, E. exact IH.
Qed.

Lemma get_del_other {A} k k' (d : Dict.t A) :
  k' <> k -> Dict.get k' (Dict.del k d) = Dict.get k' d.
Proof.
  intros Hne. unfold Dict.del. induction d as [|[k0 v0] d IH]; simpl; [reflexivity|].
  destruct (String.eqb k0 k) eqn:E; simpl.
  - apply String.eqb_eq in E. subst k0. rewrite (eqb_neq _ _ Hne). exact IH.
  - destruct (String.eqb k' k0); [reflexivity | exact IH].
Qed.

Lemma mem_get {A} k (d : Dict.t A) : Dict.mem k d = false <-> Dict.get k d = None.
Proof. unfold Dict.mem. destruct (Dict.get k d); split; congruence. Qed.

End DictFacts.

Import DictFacts.

(** ** Theorems about the operations *)
Section Properties.

Variable V : Type.
Variable clock : nat -> float.
Variable hour_of : float -> Z.

Local Abbreviation St := (St V).
Local Abbreviation compute_score := (compute_score V clock hour_of).
Local Abbreviation get := (get V clock).
Local Abbreviation put := (put V clock hour_of).
Local Abbreviation put_store := (put_store V clock).
Local Abbreviation evict := (evict V clock hour_of).
Local Abbreviation exec := (exec V clock hour_of).
Local Abbreviation OpGet := (OpGet V).

Lemma freq_of_set_same k n (s : St) d :
  access_freq s = d -> freq_of k (set_freq V (Dict.set k n d) s) = n.
Proof. intros; unfold freq_of; simpl. now rewrite get_set_same. Qed.

Lemma freq_of_getitem_incr_other k k' (s : St) :
  k' <> k ->
  freq_of k' (snd (freq_incr V k s)) = freq_of k' s.
Proof.
  intros Hne. unfold freq_incr, bind, freq_getitem, modify, freq_of.
  destruct (Dict.get k (access_freq s)) eqn:E; simpl;
    rewrite get_set_other by exact Hne; [reflexivity|].
  rewrite get_app_other by exact Hne. reflexivity.
Qed.

Lemma freq_of_getitem_incr_same k (s : St) :
  freq_of k (snd (freq_incr V k s)) = freq_of k s + 1.
Proof.
  unfold freq_incr, bind, freq_getitem, modify, freq_of.
  destruct (Dict.get k (access_freq s)) eqn:E; simpl; rewrite get_set_same; reflexivity.
Qed.

(** C3, refuted: an explicit hint [t = 0] is falsy in [t or ...], so
    [compute_score(key, 0, loc)] computes exactly what [compute_score(key,
    None, loc)] computes: the time term is [delta * time_fn(current hour)],
    not [delta * time_fn(0)]. *)
Theorem compute_score_hint_zero_is_current_hour (k : string) loc (s : St) :
  compute_score k (Some 0) loc s = compute_score k None loc s.
Proof. reflexivity. Qed.

(** C6: [put] on a key already in the cache skips the capacity check and
    [evict] altogether (it is the store of lines 81-84 alone), returns
    normally, keeps the cache's keys and their order (so its size), stores
    the new value, and leaves every other key's value, frequency and
    last-access time as they were. *)
Theorem put_existing_key_never_evicts (s : St) k v t loc :
  Dict.mem k (cache s) = true ->
  put k v t loc s = put_store k v s /\
  fst (put k v t loc s) = Ok tt /\
  Dict.keys (cache (snd (put k v t loc s))) = Dict.keys (cache s) /\
  List.length (cache (snd (put k v t loc s))) = List.length (cache s) /\
  (exists ins, Dict.get k (cache (snd (put k v t loc s))) = Some (v, ins)) /\
  (forall k', k' <> k ->
     Dict.get k' (cache (snd (put k v t loc s))) = Dict.get k' (cache s) /\
     freq_of k' (snd (put k v t loc s)) = freq_of k' s /\
     Dict.get k' (last_access (snd (put k v t loc s))) = Dict.get k' (last_access s)).
Proof.
  intros Hmem.
  assert (Hput : put k v t loc s = put_store k v s).
  { unfold TLCA.put, bind, gets, ret. rewrite Hmem. reflexivity. }
  rewrite Hput.
  assert (Hkeys : Dict.keys (cache (snd (put_store k v s))) = Dict.keys (cache s)).
  { unfold TLCA.put_store, freq_incr, freq_getitem, bind, time_time, modify; simpl.
    destruct (Dict.get k (access_freq s)); simpl; apply keys_set_mem; exact Hmem. }
  split; [reflexivity|]. split.
  { unfold TLCA.put_store, freq_incr, freq_getitem, bind, time_time, modify; simpl.
    destruct (Dict.get k (access_freq s)); reflexivity. }
  split; [exact Hkeys|]. split.
  { rewrite <- !(length_map fst). exact (f_equal (@List.length string) Hkeys). }
  split.
  - exists (clock (tick s)).
    unfold TLCA.put_store, freq_incr, freq_getitem, bind, time_time, modify; simpl.
    destruct (Dict.get k (access_freq s)); simpl; apply get_set_same.
  - intros k' Hne.
    unfold TLCA.put_store, freq_incr, freq_getitem, bind, time_time, modify, freq_of;
      simpl.
    destruct (Dict.get k (access_freq s)); simpl;
      rewrite !get_set_other by exact Hne;
      [|rewrite get_app_other by exact Hne]; repeat split.
Qed.

(** C7: [get] on a key in the cache returns its stored value, adds exactly 1
    to its [access_freq] entry, sets its [last_access] entry to the clock
    reading of this call, and changes neither the stored values nor any
    other key's frequency or last-access time. *)
Theorem get_present_key (s : St) k v ins t loc :
  Dict.get k (cache s) = Some (v, ins) ->
  fst (get k t loc s) = Ok (Some v) /\
  freq_of k (snd (get k t loc s)) = freq_of k s + 1 /\
  Dict.get k (last_access (snd (get k t loc s))) = Some (clock (tick s)) /\
  cache (snd (get k t loc s)) = cache s /\
  (forall k', k' <> k ->
     freq_of k' (snd (get k t loc s)) = freq_of k' s /\
     Dict.get k' (last_access (snd (get k t loc s))) = Dict.get k' (last_access s)).
Proof.
  intros Hget.
  assert (Hmem : Dict.mem k (cache s) = true) by (unfold Dict.mem; now rewrite Hget).
  unfold TLCA.get, freq_incr, freq_getitem, bind, gets, time_time, modify, ret,
    freq_of; simpl.
  rewrite Hmem.
  destruct (Dict.get k (access_freq s)) eqn:E; simpl; rewrite Hget; simpl;
    rewrite !get_set_same; (split; [reflexivity|]); (split; [reflexivity|]);
    (split; [reflexivity|]); (split; [reflexivity|]);
    intros k' Hne; rewrite !get_set_other by exact Hne;
    [|rewrite get_app_other by exact Hne]; split; reflexivity.
Qed.

(** C8: [get] on a key not in the cache returns [None] without raising and
    leaves the whole state (all three dictionaries, the configuration and
    the clock) unchanged, so any number of such calls leaves it unchanged. *)
Theorem get_absent_key_no_mutation (s : St) k t loc (n : nat) :
  Dict.mem k (cache s) = false ->
  get k t loc s = (Ok None, s) /\
  exec (repeat (OpGet k t loc) n) s = s.
Proof.
  intros Hmem.
  assert (H1 : get k t loc s = (Ok None, s)).
  { unfold TLCA.get, bind, gets, ret. rewrite Hmem. reflexivity. }
  split; [exact H1|].
  induction n as [|n IH]; [reflexivity|].
  unfold TLCA.exec in *. simpl. unfold run_op. rewrite H1. exact IH.
Qed.

(** *** What [compute_score] and [evict] do to the state *)

(** [access_freq[key]] inserts [key] with 0 when it is missing. *)
Definition af_touch (k : string) (d : Dict.t Z) : Dict.t Z :=
  match Dict.get k d with Some _ => d | None => d ++ [(k, 0)] end.

Lemma compute_score_effect k t loc (s : St) :
  cfg (snd (compute_score k t loc s)) = cfg s /\
  cache (snd (compute_score k t loc s)) = cache s /\
  last_access (snd (compute_score k t loc s)) = last_access s /\
  access_freq (snd (compute_score k t loc s)) = af_touch k (access_freq s).
Proof.
  unfold TLCA.compute_score, bind, freq_getitem, time_time, last_getitem, gets,
    t_or_hour, localtime_hour, ret, throw, af_touch.
  destruct (Dict.get k (access_freq s)) eqn:E1; simpl;
  destruct (Dict.get k (last_access s)) eqn:E2; simpl; try (repeat split; reflexivity);
  (destruct t as [h|]; [destruct (h =? 0)|]); simpl;
  (destruct loc as [[x y]|]); simpl;
  match goal with |- context [if ?b then _ else _] => destruct b end;
  repeat split; reflexivity.
Qed.

(** Two states related by a run of score computations over cached keys. *)
Definition frame (s s' : St) : Prop :=
  cfg s' = cfg s /\ cache s' = cache s /\ last_access s' = last_access s /\
  (forall k, freq_of k s' = freq_of k s) /\
  (forall k, Dict.mem k (cache s) = false ->
     Dict.get k (access_freq s') = Dict.get k (access_freq s)).

Lemma frame_refl (s : St) : frame s s.
Proof. repeat split; reflexivity. Qed.

Lemma frame_trans (s1 s2 s3 : St) : frame s1 s2 -> frame s2 s3 -> frame s1 s3.
Proof.
  intros (H1 & H2 & H3 & H4 & H5) (G1 & G2 & G3 & G4 & G5).
  split; [congruence|]. split; [congruence|]. split; [congruence|]. split.
  - intros k. rewrite G4. apply H4.
  - intros k Hk. rewrite G5 by congruence. apply H5, Hk.
Qed.

Lemma compute_score_frame k t loc (s : St) :
  Dict.mem k (cache s) = true -> frame s (snd (compute_score k t loc s)).
Proof.
  intros Hk. destruct (compute_score_effect k t loc s) as (E1 & E2 & E3 & E4).
  unfold frame, freq_of. rewrite E1, E2, E3, E4. unfold af_touch.
  repeat split; [intros k'..].
  - destruct (Dict.get k (access_freq s)) eqn:E; [reflexivity|].
    destruct (String.eqb k' k) eqn:Ek.
    + apply String.eqb_eq in Ek. subst k'. rewrite get_app_none by exact E. now rewrite E.
    + rewrite get_app_other by (apply String.eqb_neq; exact Ek). reflexivity.
  - intros Hk'. destruct (Dict.get k (access_freq s)); [reflexivity|].
    apply get_app_other. intros ->. congruence.
Qed.

Lemma in_keys_mem {A} k (d : Dict.t A) : In k (Dict.keys d) -> Dict.mem k d = true.
Proof.
  unfold Dict.mem. induction d as [|[k0 v0] d IH]; simpl; [contradiction|].
  intros [<- | H].
  - rewrite eqb_refl'. reflexivity.
  - destruct (String.eqb k k0); [reflexivity | exact (IH H)].
Qed.

Lemma scan_effect t loc ks : forall acc (s : St),
  (forall k, In k ks -> Dict.mem k (cache s) = true) ->
  frame s (snd (scan V clock hour_of t loc ks acc s)) /\
  (forall r, fst (scan V clock hour_of t loc ks acc s) = Ok r ->
     forall x, In x (snd r) -> In x ks \/ In x (snd acc)).
Proof.
  induction ks as [|key ks IH]; intros [m tied] s Hks.
  - simpl. split; [apply frame_refl|]. intros r Hr. inversion Hr; subst. auto.
  - simpl. unfold bind.
    pose proof (compute_score_frame key t loc s (Hks key (or_introl eq_refl))) as Hf.
    destruct (compute_score key t loc s) as [[score|e] s1] eqn:Ec; simpl in Hf.
    + assert (Hks1 : forall k, In k ks -> Dict.mem k (cache s1) = true).
      { intros k Hin. destruct Hf as (_ & Hc & _). rewrite Hc. apply Hks. now right. }
      destruct (score <? m)%float;
        [|destruct (PrimFloat.abs (score - m) <? tie_tolerance)%float];
        (match goal with |- context [scan _ _ _ _ _ ks ?a s1] =>
           destruct (IH a s1 Hks1) as [IHf IHr] end; split;
         [exact (frame_trans _ _ _ Hf IHf)|]);
        intros r Hr x Hx; destruct (IHr r Hr x Hx) as [Hin | Hin]; simpl in Hin; auto;
        [ destruct Hin as [<- | []]; auto
        | apply in_app_or in Hin; destruct Hin as [Hin | [<- | []]]; auto ].
    + split; [exact Hf|]. intros r Hr. discriminate.
Qed.

Lemma max_from_effect ks : forall best bv (s : St),
  snd (max_from V best bv ks s) = s /\
  (forall x, fst (max_from V best bv ks s) = Ok x -> x = best \/ In x ks).
Proof.
  induction ks as [|k ks IH]; intros best bv s; simpl.
  - split; [reflexivity|]. intros x Hx. inversion Hx; auto.
  - unfold bind, last_getitem. destruct (Dict.get k (last_access s)) as [v|]; simpl.
    + destruct (bv <? v)%float;
        [destruct (IH k v s) as [IHs IHr] | destruct (IH best bv s) as [IHs IHr]];
        (split; [exact IHs|]); intros x Hx; destruct (IHr x Hx); subst; simpl; auto.
    + split; [reflexivity|]. intros x Hx; discriminate.
Qed.

Lemma max_by_last_effect ks (s : St) :
  snd (max_by_last V ks s) = s /\
  (forall x, fst (max_by_last V ks s) = Ok x -> In x ks).
Proof.
  destruct ks as [|k ks]; simpl.
  - split; [reflexivity|]. intros x Hx; discriminate.
  - unfold bind, last_getitem. destruct (Dict.get k (last_access s)) as [v|]; simpl.
    + destruct (max_from_effect ks k v s) as [Hs Hr]. split; [exact Hs|].
      intros x Hx. destruct (Hr x Hx); auto.
    + split; [reflexivity|]. intros x Hx; discriminate.
Qed.

(** The state with [key] deleted from the three dictionaries. *)
Definition remove_key (x : string) (s : St) : St :=
  mk_st (cfg s) (Dict.del x (cache s)) (Dict.del x (access_freq s))
        (Dict.del x (last_access s)) (tick s).

(** [evict] either changes nothing but what score computations change, or
    it also deletes one cached key from all three dictionaries. *)
Lemma evict_effect t loc (s : St) :
  frame s (snd (evict t loc s)) \/
  exists x s1, Dict.mem x (cache s) = true /\ frame s s1 /\
               snd (evict t loc s) = remove_key x s1.
Proof.
  unfold TLCA.evict, bind, gets.
  destruct (scan_effect t loc (Dict.keys (cache s)) (PrimFloat.infinity, []) s
              (fun k Hk => in_keys_mem k _ Hk)) as [Hf Hr].
  destruct (scan V clock hour_of t loc (Dict.keys (cache s)) (PrimFloat.infinity, []) s)
    as [[[m tied]|e] s1] eqn:Es; simpl in *; [|left; exact Hf].
  destruct tied as [|k0 tied']; [left; exact Hf|].
  destruct (max_by_last_effect (k0 :: tied') s1) as [Hms Hmr].
  destruct (max_by_last V (k0 :: tied') s1) as [[x|e] s2] eqn:Em; simpl in *;
    subst s2; [|left; exact Hf].
  assert (Hx : Dict.mem x (cache s) = true).
  { destruct (Hr _ eq_refl x (Hmr x eq_refl)) as [Hin | []].
    apply in_keys_mem, Hin. }
  unfold cache_delitem, modify.
  assert (Hx1 : Dict.mem x (cache s1) = true).
  { destruct Hf as (_ & Hc & _). rewrite Hc. exact Hx. }
  rewrite Hx1. simpl. right. exists x, s1. split; [exact Hx|]. split; [exact Hf|].
  reflexivity.
Qed.

(** *** The invariant of reachable states *)

(** Every cached key has been counted at least once, and a key that is not
    cached has no [access_freq] and no [last_access] entry. *)
Definition Inv (s : St) : Prop :=
  (forall k, Dict.mem k (cache s) = true -> 1 <= freq_of k s) /\
  (forall k, Dict.mem k (cache s) = false ->
     Dict.get k (access_freq s) = None /\ Dict.get k (last_access s) = None).

Lemma Inv_freq_nonneg (s : St) k : Inv s -> 0 <= freq_of k s.
Proof.
  intros [H1 H2]. destruct (Dict.mem k (cache s)) eqn:E.
  - specialize (H1 k E). lia.
  - destruct (H2 k E) as [Hf _]. unfold freq_of. rewrite Hf. lia.
Qed.

Lemma Inv_frame (s s' : St) : Inv s -> frame s s' -> Inv s'.
Proof.
  intros [H1 H2] (F1 & F2 & F3 & F4 & F5). unfold Inv. rewrite F2. split.
  - intros k Hk. rewrite F4. apply H1, Hk.
  - intros k Hk. rewrite F5 by exact Hk. rewrite F3. apply H2, Hk.
Qed.

Lemma Inv_remove (s : St) x : Inv s -> Inv (remove_key x s).
Proof.
  intros [H1 H2]. unfold Inv, remove_key, Dict.mem, freq_of.
  cbn [cfg cache access_freq last_access tick]. split.
  - intros k Hk. destruct (String.eqb k x) eqn:E.
    + apply String.eqb_eq in E. subst k. rewrite get_del_same in Hk. discriminate.
    + apply String.eqb_neq in E. rewrite get_del_other in Hk by exact E. rewrite get_del_other by exact E.
      apply (H1 k Hk).
  - intros k Hk. destruct (String.eqb k x) eqn:E.
    + apply String.eqb_eq in E. subst k. rewrite !get_del_same. split; reflexivity.
    + apply String.eqb_neq in E. rewrite get_del_other in Hk by exact E.
      rewrite !get_del_other by exact E. apply (H2 k Hk).
Qed.

Lemma Inv_evict t loc (s : St) : Inv s -> Inv (snd (evict t loc s)).
Proof.
  intros HI. destruct (evict_effect t loc s) as [Hf | (x & s1 & _ & Hf & ->)].
  - exact (Inv_frame _ _ HI Hf).
  - apply Inv_remove, (Inv_frame _ _ HI Hf).
Qed.

Lemma freq_evict_uncached t loc (s : St) k :
  Dict.mem k (cache s) = false -> freq_of k (snd (evict t loc s)) = freq_of k s.
Proof.
  intros Hk. destruct (evict_effect t loc s) as [Hf | (x & s1 & Hx & Hf & ->)].
  - destruct Hf as (_ & _ & _ & F4 & _). apply F4.
  - destruct Hf as (_ & _ & _ & F4 & _). unfold remove_key, freq_of; simpl.
    rewrite get_del_other by (intros ->; congruence). apply F4.
Qed.

(** A key counted once more and touched, the other keys left alone. *)
Lemma Inv_touch k (s s' : St) :
  Inv s ->
  (forall k', k' <> k -> Dict.mem k' (cache s') = Dict.mem k' (cache s)) ->
  Dict.mem k (cache s') = true ->
  access_freq s' = Dict.set k (freq_of k s + 1) (af_touch k (access_freq s)) ->
  (forall k', k' <> k -> Dict.get k' (last_access s') = Dict.get k' (last_access s)) ->
  Inv s'.
Proof.
  intros HI Hmem Hk Haf Hlast.
  pose proof (Inv_freq_nonneg s k HI) as Hnn. destruct HI as [H1 H2].
  assert (Hother : forall k', k' <> k ->
            Dict.get k' (access_freq s') = Dict.get k' (access_freq s)).
  { intros k' Hne. rewrite Haf, get_set_other by exact Hne. unfold af_touch.
    destruct (Dict.get k (access_freq s)); [reflexivity|].
    apply get_app_other, Hne. }
  split.
  - intros k' Hk'. destruct (String.eqb k' k) eqn:E.
    + apply String.eqb_eq in E. subst k'. unfold freq_of at 1.
      rewrite Haf, get_set_same. lia.
    + apply String.eqb_neq in E. unfold freq_of. rewrite Hother by exact E.
      rewrite Hmem in Hk' by exact E. apply (H1 k' Hk').
  - intros k' Hk'. destruct (String.eqb k' k) eqn:E.
    + apply String.eqb_eq in E. subst k'. congruence.
    + apply String.eqb_neq in E. rewrite Hother, Hlast by exact E.
      rewrite Hmem in Hk' by exact E. apply (H2 k' Hk').
Qed.

Lemma mem_set_other {A} k k' (v : A) d :
  k' <> k -> Dict.mem k' (Dict.set k v d) = Dict.mem k' d.
Proof. intros Hne. unfold Dict.mem. now rewrite get_set_other. Qed.

Lemma mem_set_same {A} k (v : A) d : Dict.mem k (Dict.set k v d) = true.
Proof. unfold Dict.mem. now rewrite get_set_same. Qed.

Lemma put_store_effect k v (s : St) :
  put_store k v s =
  (Ok tt, mk_st (cfg s) (Dict.set k (v, clock (tick s)) (cache s))
                (Dict.set k (freq_of k s + 1) (af_touch k (access_freq s)))
                (Dict.set k (clock (S (tick s))) (last_access s)) (S (S (tick s)))).
Proof.
  unfold TLCA.put_store, freq_incr, freq_getitem, bind, time_time, modify,
    freq_of, af_touch; simpl.
  destruct (Dict.get k (access_freq s)); reflexivity.
Qed.

Lemma Inv_put_store k v (s : St) : Inv s -> Inv (snd (put_store k v s)).
Proof.
  intros HI. rewrite put_store_effect. simpl.
  apply (Inv_touch k s); simpl; auto using mem_set_same.
  - intros k' Hne. apply mem_set_other, Hne.
  - intros k' Hne. apply get_set_other, Hne.
Qed.

Lemma put_unfold k v t loc (s : St) :
  put k v t loc s =
  match (if negb (Dict.mem k (cache s))
            && (capacity (cfg s) <=? Z.of_nat (List.length (cache s)))
         then evict t loc s else (Ok tt, s)) with
  | (Ok _, s1) => put_store k v s1
  | (Raise e, s1) => (Raise e, s1)
  end.
Proof.
  unfold TLCA.put, bind, gets, ret.
  destruct (negb (Dict.mem k (cache s)) && _); reflexivity.
Qed.

Lemma Inv_put k v t loc (s : St) : Inv s -> Inv (snd (put k v t loc s)).
Proof.
  intros HI. rewrite put_unfold.
  assert (H1 : Inv (snd (if negb (Dict.mem k (cache s))
                              && (capacity (cfg s) <=? Z.of_nat (List.length (cache s)))
                           then evict t loc s else (Ok tt, s)))).
  { destruct (_ && _); [apply Inv_evict, HI | exact HI]. }
  destruct (if negb (Dict.mem k (cache s))
                && (capacity (cfg s) <=? Z.of_nat (List.length (cache s)))
             then evict t loc s else (Ok tt, s)) as [[u|e] s1]; simpl in H1.
  - apply Inv_put_store, H1.
  - exact H1.
Qed.

Lemma get_effect k t loc (s : St) :
  Dict.mem k (cache s) = true ->
  snd (get k t loc s) =
  mk_st (cfg s) (cache s) (Dict.set k (freq_of k s + 1) (af_touch k (access_freq s)))
        (Dict.set k (clock (tick s)) (last_access s)) (S (tick s)).
Proof.
  intros Hk. unfold TLCA.get, freq_incr, freq_getitem, bind, gets, time_time,
    modify, ret, throw, freq_of, af_touch.
  rewrite Hk.
  destruct (Dict.get k (access_freq s)); simpl;
    destruct (Dict.get k (cache s)) as [[v ins]|]; reflexivity.
Qed.

Lemma Inv_get k t loc (s : St) : Inv s -> Inv (snd (get k t loc s)).
Proof.
  intros HI. destruct (Dict.mem k (cache s)) eqn:Hk.
  - rewrite (get_effect k t loc s Hk).
    apply (Inv_touch k s); simpl; auto.
    intros k' Hne. apply get_set_other, Hne.
  - unfold TLCA.get, bind, gets, ret. rewrite Hk. exact HI.
Qed.

Lemma Inv_run_op o (s : St) : Inv s -> Inv (run_op V clock hour_of o s).
Proof.
  intros HI. destruct o as [k t loc | k v t loc | t loc | | cf tf lf]; simpl.
  - apply Inv_get, HI.
  - apply Inv_put, HI.
  - apply Inv_evict, HI.
  - exact HI.
  - exact HI.
Qed.

Lemma Inv_exec ops : forall (s : St), Inv s -> Inv (exec ops s).
Proof.
  unfold TLCA.exec.
  induction ops as [|o ops IH]; intros s HI; simpl; [exact HI|].
  apply IH, Inv_run_op, HI.
Qed.

Lemma Inv_init cap a b g d e n : Inv (init V cap a b g d e n).
Proof. split; intros k Hk; [discriminate | split; reflexivity]. Qed.

Lemma reachable_Inv (s : St) : reachable V clock hour_of s -> Inv s.
Proof.
  intros (cap & a & b & g & d & e & n & ops & ->). apply Inv_exec, Inv_init.
Qed.

(** [evict] on an empty cache scans nothing and returns the state as it was. *)
Lemma evict_empty_noop t loc (s : St) : cache s = [] -> evict t loc s = (Ok tt, s).
Proof. intros Hc. unfold TLCA.evict, bind, gets, ret. rewrite Hc. reflexivity. Qed.

(** C9: in every reachable state each cached key has [access_freq] at least
    1; and a [put] of a key not in the cache that returns normally leaves
    that key cached with [access_freq] exactly 1.  Since every state after
    further calls is again reachable, the bound holds after every later
    operation. *)
Theorem put_new_key_frequency_one (s : St) :
  reachable V clock hour_of s ->
  (forall k, Dict.mem k (cache s) = true -> 1 <= freq_of k s) /\
  (forall k v t loc s', Dict.mem k (cache s) = false ->
     put k v t loc s = (Ok tt, s') ->
     freq_of k s' = 1 /\ Dict.mem k (cache s') = true).
Proof.
  intros Hr. pose proof (reachable_Inv s Hr) as HI.
  split; [apply (proj1 HI)|].
  intros k v t loc s' Hk Hput.
  assert (H0 : freq_of k s = 0).
  { destruct (proj2 HI k Hk) as [Hf _]. unfold freq_of. rewrite Hf. reflexivity. }
  rewrite put_unfold in Hput.
  assert (Hs1 : forall s1, snd (if negb (Dict.mem k (cache s))
                     && (capacity (cfg s) <=? Z.of_nat (List.length (cache s)))
                   then evict t loc s else (Ok tt, s)) = s1 -> freq_of k s1 = 0).
  { intros s1 <-. destruct (_ && _); [rewrite freq_evict_uncached by exact Hk|]; exact H0. }
  destruct (if negb (Dict.mem k (cache s))
              && (capacity (cfg s) <=? Z.of_nat (List.length (cache s)))
            then evict t loc s else (Ok tt, s)) as [[u|e] s1];
    [|discriminate].
  specialize (Hs1 s1 eq_refl).
  rewrite put_store_effect in Hput. injection Hput as <-.
  unfold freq_of at 1. cbn [access_freq cache]. rewrite get_set_same.
  split; [lia | apply mem_set_same].
Qed.

(** C10: in a reachable state, calling [compute_score] on a key that is not
    cached raises [KeyError] (the lookup [self.last_access[key]]), after
    having inserted the key into [access_freq] with the default 0 (it had
    no entry before) and read the clock once. *)
Theorem compute_score_absent_key_raises (s : St) k t loc :
  reachable V clock hour_of s ->
  Dict.mem k (cache s) = false ->
  compute_score k t loc s =
    (Raise KeyError,
     mk_st (cfg s) (cache s) (access_freq s ++ [(k, 0)]) (last_access s) (S (tick s))) /\
  Dict.get k (access_freq s) = None /\
  Dict.get k (access_freq (snd (compute_score k t loc s))) = Some 0.
Proof.
  intros Hr Hk. destruct (proj2 (reachable_Inv s Hr) k Hk) as [Hf Hl].
  assert (Hc : compute_score k t loc s =
    (Raise KeyError,
     mk_st (cfg s) (cache s) (access_freq s ++ [(k, 0)]) (last_access s) (S (tick s)))).
  { unfold TLCA.compute_score, bind, freq_getitem, time_time, last_getitem.
    rewrite Hf. simpl. rewrite Hl. reflexivity. }
  split; [exact Hc|]. split; [exact Hf|].
  rewrite Hc. simpl. apply get_app_none, Hf.
Qed.

End Properties.

(** ** The cache at the failing inputs *)
Module Failures.

Import Runs.
Local Open Scope string_scope.

(** C1, refuted: a cache of capacity 1 ends up holding two keys.  With
    [alpha = 1e308], after [put("A")] and [get("A")] the score of "A" is
    [inf]; [evict] starts from [min_score = float('inf')], so [inf < inf]
    and [abs(inf - inf) < 1e-5] both fail, [tied_keys] stays empty, nothing
    is evicted, and [put("B")] returns normally with two keys cached. *)
Theorem capacity_exceeded_when_scores_overflow :
  capacity (cfg big_alpha) = 1 /\
  score_at big_alpha "A" = Ok PrimFloat.infinity /\
  fst (put string clk hour_noon "B" "b" None None big_alpha) = Ok tt /\
  Dict.keys (cache (snd (put string clk hour_noon "B" "b" None None big_alpha)))
    = ["A"; "B"] /\
  capacity (cfg big_alpha)
    < Z.of_nat (List.length (cache (snd (put string clk hour_noon "B" "b" None None
                                           big_alpha)))).
Proof. vm_compute. repeat split; reflexivity. Qed.

(** C2, refuted: scores of "A" (seen first) and "B" differ by less than
    [1e-5], "B" has the minimum and "A" the later last access; the scan
    resets [tied_keys] to ["B"] when it meets the lower score, so [evict]
    removes "B" and keeps "A". *)
Theorem evict_drops_earlier_near_tie :
  Dict.keys (cache near_tie) = ["A"; "B"] /\
  match score_at near_tie "A", score_at near_tie "B" with
  | Ok sa, Ok sb => (sb <? sa)%float && (PrimFloat.abs (sa - sb) <? tie_tolerance)%float
  | _, _ => false
  end = true /\
  match Dict.get "A" (last_access near_tie), Dict.get "B" (last_access near_tie) with
  | Some la, Some lb => (lb <? la)%float
  | _, _ => false
  end = true /\
  match fst (scan string clk hour_noon None None ["A"; "B"] (PrimFloat.infinity, [])
               near_tie) with
  | Ok (_, tied) => tied
  | Raise _ => []
  end = ["B"] /\
  fst (evict string clk hour_noon None None near_tie) = Ok tt /\
  Dict.keys (cache (snd (evict string clk hour_noon None None near_tie))) = ["A"].
Proof. vm_compute. repeat split; reflexivity. Qed.

(** C4, refuted: the cache of [big_alpha] is full (one key, capacity 1)
    and "B" is new, yet [put("B")] removes no key and the size grows to 2. *)
Theorem full_put_new_key_evicts_nothing :
  Z.of_nat (List.length (cache big_alpha)) = capacity (cfg big_alpha) /\
  Dict.mem "B" (cache big_alpha) = false /\
  fst (put string clk hour_noon "B" "b" None None big_alpha) = Ok tt /\
  Dict.mem "A" (cache (snd (put string clk hour_noon "B" "b" None None big_alpha))) = true /\
  List.length (cache (snd (put string clk hour_noon "B" "b" None None big_alpha))) = 2%nat.
Proof. vm_compute. repeat split; reflexivity. Qed.

(** C5, refuted: on the non-empty cache [big_alpha], [evict] returns
    normally and removes no key: cache, frequencies and last-access times
    are unchanged. *)
Theorem evict_nonempty_removes_nothing :
  Dict.keys (cache big_alpha) = ["A"] /\
  fst (evict string clk hour_noon None None big_alpha) = Ok tt /\
  cache (snd (evict string clk hour_noon None None big_alpha)) = cache big_alpha /\
  access_freq (snd (evict string clk hour_noon None None big_alpha)) = access_freq big_alpha /\
  last_access (snd (evict string clk hour_noon None None big_alpha)) = last_access big_alpha.
Proof. vm_compute. repeat split; reflexivity. Qed.

(** At [t = 0] the time term is [time_fn(12)] (the current hour here):
    the score equals the one at [t = 12] and differs from the one of a
    cache whose [time_fn] answers [time_fn(0)] everywhere. *)
Example hint_zero_uses_current_hour :
  let tf := fun h => if (h =? 0)%Z then 2%float else 0.5%float in
  let s := snd (set_context_functions string None (Some tf) None near_tie) in
  let s0 := snd (set_context_functions string None (Some (fun _ => tf 0%Z)) None
                   near_tie) in
  fst (compute_score string clk hour_noon "A" (Some 0%Z) None s)
    = fst (compute_score string clk hour_noon "A" (Some 12%Z) None s) /\
  (match fst (compute_score string clk hour_noon "A" (Some 0%Z) None s),
         fst (compute_score string clk hour_noon "A" (Some 0%Z) None s0) with
   | Ok a, Ok b => PrimFloat.eqb a b
   | _, _ => true
   end) = false.
Proof. vm_compute. split; reflexivity. Qed.

End Failures.

(** ** Witnesses: the theorems applied at reachable concrete states *)
Module Witnesses.

Import Runs.
Local Open Scope string_scope.

Lemma put_existing_key_never_evicts_witness :
  Dict.mem "A" (cache near_tie) = true /\
  (put string clk hour_noon "A" "z" None None near_tie
     = put_store string clk "A" "z" near_tie /\
   fst (put string clk hour_noon "A" "z" None None near_tie) = Ok tt /\
   Dict.keys (cache (snd (put string clk hour_noon "A" "z" None None near_tie)))
     = Dict.keys (cache near_tie) /\
   List.length (cache (snd (put string clk hour_noon "A" "z" None None near_tie)))
     = List.length (cache near_tie) /\
   (exists ins, Dict.get "A" (cache (snd (put string clk hour_noon "A" "z" None None
                                            near_tie))) = Some ("z", ins)) /\
   (forall k', k' <> "A" ->
      Dict.get k' (cache (snd (put string clk hour_noon "A" "z" None None near_tie)))
        = Dict.get k' (cache near_tie) /\
      freq_of k' (snd (put string clk hour_noon "A" "z" None None near_tie))
        = freq_of k' near_tie /\
      Dict.get k' (last_access (snd (put string clk hour_noon "A" "z" None None near_tie)))
        = Dict.get k' (last_access near_tie))).
Proof.
  assert (H : Dict.mem "A" (cache near_tie) = true) by (vm_compute; reflexivity).
  split; [exact H|].
  exact (put_existing_key_never_evicts string clk hour_noon near_tie "A" "z" None None H).
Defined.

Lemma get_present_key_witness :
  Dict.get "B" (cache near_tie) = Some ("b", 2%float) /\
  (fst (get string clk "B" None None near_tie) = Ok (Some "b") /\
   freq_of "B" (snd (get string clk "B" None None near_tie)) = freq_of "B" near_tie + 1 /\
   Dict.get "B" (last_access (snd (get string clk "B" None None near_tie)))
     = Some (clk (tick near_tie)) /\
   cache (snd (get string clk "B" None None near_tie)) = cache near_tie /\
   (forall k', k' <> "B" ->
      freq_of k' (snd (get string clk "B" None None near_tie)) = freq_of k' near_tie /\
      Dict.get k' (last_access (snd (get string clk "B" None None near_tie)))
        = Dict.get k' (last_access near_tie))).
Proof.
  assert (H : Dict.get "B" (cache near_tie) = Some ("b", 2%float))
    by (vm_compute; reflexivity).
  split; [exact H|].
  exact (get_present_key string clk near_tie "B" "b" 2%float None None H).
Defined.

Lemma get_absent_key_no_mutation_witness :
  Dict.mem "C" (cache near_tie) = false /\
  (get string clk "C" None None near_tie = (Ok None, near_tie) /\
   exec string clk hour_noon (repeat (OpGet string "C" None None) 3) near_tie = near_tie).
Proof.
  assert (H : Dict.mem "C" (cache near_tie) = false) by (vm_compute; reflexivity).
  split; [exact H|].
  exact (get_absent_key_no_mutation string clk hour_noon near_tie "C" None None 3 H).
Defined.

Lemma put_new_key_frequency_one_witness :
  reachable string clk hour_noon near_tie /\
  ((forall k, Dict.mem k (cache near_tie) = true -> 1 <= freq_of k near_tie) /\
   (forall k v t loc s', Dict.mem k (cache near_tie) = false ->
      put string clk hour_noon k v t loc near_tie = (Ok tt, s') ->
      freq_of k s' = 1 /\ Dict.mem k (cache s') = true)).
Proof.
  assert (H : reachable string clk hour_noon near_tie).
  { exists 2%Z, 8e-6%float, 0%float, 1%float, 1%float, 1%float, 0%nat,
      [OpPut string "A" "a" None None; OpPut string "B" "b" None None;
       OpGet string "A" None None].
    reflexivity. }
  split; [exact H|].
  exact (put_new_key_frequency_one string clk hour_noon near_tie H).
Defined.

Lemma compute_score_absent_key_raises_witness :
  reachable string clk hour_noon near_tie /\
  Dict.mem "C" (cache near_tie) = false /\
  (compute_score string clk hour_noon "C" None None near_tie =
     (Raise KeyError,
      mk_st (cfg near_tie) (cache near_tie) (access_freq near_tie ++ [("C", 0%Z)])%list
            (last_access near_tie) (S (tick near_tie))) /\
   Dict.get "C" (access_freq near_tie) = None /\
   Dict.get "C" (access_freq (snd (compute_score string clk hour_noon "C" None None
                                     near_tie))) = Some 0%Z).
Proof.
  assert (H : reachable string clk hour_noon near_tie).
  { exists 2%Z, 8e-6%float, 0%float, 1%float, 1%float, 1%float, 0%nat,
      [OpPut string "A" "a" None None; OpPut string "B" "b" None None;
       OpGet string "A" None None].
    reflexivity. }
  assert (Hk : Dict.mem "C" (cache near_tie) = false) by (vm_compute; reflexivity).
  split; [exact H|]. split; [exact Hk|].
  exact (compute_score_absent_key_raises string clk hour_noon near_tie "C" None None H Hk).
Defined.

End Witnesses.

(** ** Further properties of the operations *)

Module DictFacts2.

Lemma keys_set_new {A} k (v : A) d :
  Dict.mem k d = false -> Dict.keys (Dict.set k v d) = Dict.keys d ++ [k].
Proof.
  unfold Dict.mem. induction d as [|[k0 v0] d IH]; simpl; [reflexivity|].
  destruct (String.eqb k k0) eqn:E; [discriminate|].
  intros H. simpl. f_equal. exact (IH H).
Qed.

Lemma mem_in_keys {A} k (d : Dict.t A) : Dict.mem k d = true <-> In k (Dict.keys d).
Proof.
  unfold Dict.mem. induction d as [|[k0 v0] d IH]; simpl; [split; [discriminate | contradiction]|].
  destruct (String.eqb k k0) eqn:E.
  - apply String.eqb_eq in E. subst. split; auto.
  - apply String.eqb_neq in E. rewrite IH. split; [auto|]. intros [H|H]; [congruence|exact H].
Qed.

Lemma keys_del {A} x (d : Dict.t A) :
  Dict.keys (Dict.del x d) = filter (fun k => negb (String.eqb k x)) (Dict.keys d).
Proof.
  unfold Dict.del, Dict.keys. induction d as [|[k0 v0] d IH]; simpl; [reflexivity|].
  destruct (String.eqb k0 x); simpl; rewrite IH; reflexivity.
Qed.

Lemma NoDup_keys_set {A} k (v : A) d :
  NoDup (Dict.keys d) -> NoDup (Dict.keys (Dict.set k v d)).
Proof.
  intros H. destruct (Dict.mem k d) eqn:E.
  - rewrite keys_set_mem by exact E. exact H.
  - rewrite keys_set_new by exact E. apply NoDup_app; [exact H | |].
    + constructor; [intros []|constructor].
    + intros a Ha [<- | []]. apply (proj2 (mem_in_keys k d)) in Ha. congruence.
Qed.

Lemma NoDup_keys_del {A} x (d : Dict.t A) :
  NoDup (Dict.keys d) -> NoDup (Dict.keys (Dict.del x d)).
Proof. intros H. rewrite keys_del. apply NoDup_filter, H. Qed.

Lemma length_del_mem {A} x (d : Dict.t A) :
  NoDup (Dict.keys d) -> Dict.mem x d = true ->
  S (List.length (Dict.del x d)) = List.length d.
Proof.
  induction d as [|[k0 v0] d IH]; intros Hnd Hx; [discriminate|].
  simpl in Hnd. inversion Hnd as [|? ? Hnin Hnd']; subst.
  unfold Dict.del in *. simpl.
  destruct (String.eqb k0 x) eqn:E; simpl.
  - apply String.eqb_eq in E. subst k0.
    assert (Hf : filter (fun p => negb (String.eqb (fst p) x)) d = d).
    { clear - Hnin. induction d as [|[k1 v1] d IH]; simpl; [reflexivity|].
      simpl in Hnin. destruct (String.eqb k1 x) eqn:E.
      - apply String.eqb_eq in E. subst. exfalso. apply Hnin. now left.
      - simpl. f_equal. apply IH. intros H. apply Hnin. now right. }
    rewrite Hf. reflexivity.
  - f_equal. apply IH; [exact Hnd'|].
    unfold Dict.mem in Hx |- *. simpl in Hx.
    rewrite String.eqb_sym, E in Hx. exact Hx.
Qed.

End DictFacts2.

Import DictFacts2.

Section MoreProperties.

Variable V : Type.
Variable clock : nat -> float.
Variable hour_of : float -> Z.

Local Abbreviation St := (St V).
Local Abbreviation compute_score := (compute_score V clock hour_of).
Local Abbreviation get := (get V clock).
Local Abbreviation put := (put V clock hour_of).
Local Abbreviation put_store := (put_store V clock).
Local Abbreviation evict := (evict V clock hour_of).
Local Abbreviation exec := (exec V clock hour_of).
Local Abbreviation reachable := (reachable V clock hour_of).

(** Cached keys have a last-access entry, and the cache holds no key twice. *)
Definition Inv2 (s : St) : Prop :=
  (forall k, Dict.mem k (cache s) = true -> Dict.mem k (last_access s) = true) /\
  NoDup (Dict.keys (cache s)).

Lemma Inv2_frame (s s' : St) : Inv2 s -> frame V s s' -> Inv2 s'.
Proof.
  intros [H1 H2] (F1 & F2 & F3 & _). unfold Inv2. rewrite F2, F3. split; assumption.
Qed.

Lemma Inv2_remove (s : St) x : Inv2 s -> Inv2 (remove_key V x s).
Proof.
  intros [H1 H2]. unfold Inv2, remove_key. cbn [cache last_access]. split.
  - intros k Hk. unfold Dict.mem in Hk |- *.
    destruct (String.eqb k x) eqn:E.
    + apply String.eqb_eq in E. subst. rewrite get_del_same in Hk. discriminate.
    + apply String.eqb_neq in E. rewrite get_del_other in Hk by exact E.
      rewrite get_del_other by exact E. apply H1, Hk.
  - apply NoDup_keys_del, H2.
Qed.

Lemma Inv2_evict t loc (s : St) : Inv2 s -> Inv2 (snd (evict t loc s)).
Proof.
  intros HI. destruct (evict_effect V clock hour_of t loc s)
    as [Hf | (x & s1 & _ & Hf & ->)].
  - exact (Inv2_frame _ _ HI Hf).
  - apply Inv2_remove, (Inv2_frame _ _ HI Hf).
Qed.

Lemma Inv2_touch k (s s' : St) :
  Inv2 s ->
  (forall k', k' <> k -> Dict.mem k' (cache s') = Dict.mem k' (cache s)) ->
  Dict.mem k (last_access s') = true ->
  (forall k', k' <> k -> Dict.get k' (last_access s') = Dict.get k' (last_access s)) ->
  NoDup (Dict.keys (cache s')) ->
  Inv2 s'.
Proof.
  intros [H1 _] Hmem Hk Hlast Hnd. split; [|exact Hnd].
  intros k' Hk'. destruct (String.eqb k' k) eqn:E.
  - apply String.eqb_eq in E. subst. exact Hk.
  - apply String.eqb_neq in E. unfold Dict.mem at 1. rewrite Hlast by exact E.
    apply H1. rewrite <- Hmem by exact E. exact Hk'.
Qed.

Lemma Inv2_put_store k v (s : St) : Inv2 s -> Inv2 (snd (put_store k v s)).
Proof.
  intros HI. rewrite put_store_effect. simpl.
  apply (Inv2_touch k s); simpl; auto using mem_set_same.
  - intros k' Hne. apply mem_set_other, Hne.
  - intros k' Hne. apply get_set_other, Hne.
  - apply NoDup_keys_set, (proj2 HI).
Qed.

Lemma Inv2_put k v t loc (s : St) : Inv2 s -> Inv2 (snd (put k v t loc s)).
Proof.
  intros HI. rewrite put_unfold.
  assert (H1 : Inv2 (snd (if negb (Dict.mem k (cache s))
                              && (capacity (cfg s) <=? Z.of_nat (List.length (cache s)))
                           then evict t loc s else (Ok tt, s)))).
  { destruct (_ && _); [apply Inv2_evict, HI | exact HI]. }
  destruct (if negb (Dict.mem k (cache s))
                && (capacity (cfg s) <=? Z.of_nat (List.length (cache s)))
             then evict t loc s else (Ok tt, s)) as [[u|e] s1]; simpl in H1.
  - apply Inv2_put_store, H1.
  - exact H1.
Qed.

Lemma Inv2_get k t loc (s : St) : Inv2 s -> Inv2 (snd (get k t loc s)).
Proof.
  intros HI. destruct (Dict.mem k (cache s)) eqn:Hk.
  - rewrite (get_effect V clock k t loc s Hk).
    apply (Inv2_touch k s); simpl; auto using mem_set_same.
    + intros k' Hne. apply get_set_other, Hne.
    + apply (proj2 HI).
  - unfold TLCA.get, bind, gets, ret. rewrite Hk. exact HI.
Qed.

Lemma Inv2_reachable (s : St) : reachable s -> Inv2 s.
Proof.
  intros (cap & a & b & g & d & e & n & ops & ->).
  assert (H0 : Inv2 (init V cap a b g d e n)).
  { split; [intros k Hk; discriminate | constructor]. }
  revert H0. generalize (init V cap a b g d e n). unfold TLCA.exec.
  induction ops as [|o ops IH]; intros s0 H0; simpl; [exact H0|].
  apply IH. destruct o; simpl.
  - apply Inv2_get, H0.
  - apply Inv2_put, H0.
  - apply Inv2_evict, H0.
  - exact H0.
  - exact H0.
Qed.

(** *** Which exceptions the operations can raise *)

Lemma compute_score_raise_zero k t loc (s : St) e :
  Dict.mem k (last_access s) = true ->
  fst (compute_score k t loc s) = Raise e -> e = ZeroDivisionError.
Proof.
  intros Hl. unfold Dict.mem in Hl.
  destruct (Dict.get k (last_access s)) as [la|] eqn:E2; [|discriminate].
  unfold TLCA.compute_score, bind, freq_getitem, time_time, last_getitem, gets,
    t_or_hour, localtime_hour, ret, throw.
  destruct (Dict.get k (access_freq s)); simpl; rewrite E2; simpl;
  (destruct t as [h|]; [destruct (h =? 0)|]); simpl;
  (destruct loc as [[x y]|]); simpl;
  match goal with |- context [if ?b then _ else _] => destruct b end;
  simpl; congruence.
Qed.

Lemma scan_raise_zero t loc ks : forall acc (s : St) e,
  (forall k, In k ks -> Dict.mem k (cache s) = true /\ Dict.mem k (last_access s) = true) ->
  fst (scan V clock hour_of t loc ks acc s) = Raise e -> e = ZeroDivisionError.
Proof.
  induction ks as [|key ks IH]; intros [m tied] s e Hks; simpl; [discriminate|].
  unfold bind.
  destruct (Hks key (or_introl eq_refl)) as [Hc Hl].
  pose proof (compute_score_frame V clock hour_of key t loc s Hc) as Hf.
  pose proof (compute_score_raise_zero key t loc s) as Hz.
  destruct (compute_score key t loc s) as [[score|e'] s1]; simpl in Hf, Hz.
  - destruct Hf as (_ & F2 & F3 & _).
    assert (Hks1 : forall k, In k ks ->
              Dict.mem k (cache s1) = true /\ Dict.mem k (last_access s1) = true).
    { intros k Hin. rewrite F2, F3. apply Hks. now right. }
    destruct (score <? m)%float;
      [|destruct (PrimFloat.abs (score - m) <? tie_tolerance)%float];
      apply IH, Hks1.
  - intros H. injection H as <-. exact (Hz e' Hl eq_refl).
Qed.

Lemma max_from_ok ks : forall best bv (s : St),
  (forall k, In k ks -> Dict.mem k (last_access s) = true) ->
  exists x, fst (max_from V best bv ks s) = Ok x.
Proof.
  induction ks as [|k ks IH]; intros best bv s Hks; simpl; [eauto|].
  unfold bind, last_getitem.
  assert (Hk := Hks k (or_introl eq_refl)). unfold Dict.mem in Hk.
  destruct (Dict.get k (last_access s)) as [v|]; [|discriminate]. simpl.
  destruct (bv <? v)%float; apply IH; intros k' Hk'; apply Hks; now right.
Qed.

(** [evict] either raises or returns with at most one key deleted; the
    deletion, when it happens, comes last and the call then returns. *)
Lemma evict_cases t loc (s : St) :
  frame V s (snd (evict t loc s)) \/
  exists x s1, Dict.mem x (cache s) = true /\ frame V s s1 /\
               evict t loc s = (Ok tt, remove_key V x s1).
Proof.
  unfold TLCA.evict, bind, gets.
  destruct (scan_effect V clock hour_of t loc (Dict.keys (cache s))
              (PrimFloat.infinity, []) s (fun k Hk => in_keys_mem k _ Hk)) as [Hf Hr].
  destruct (scan V clock hour_of t loc (Dict.keys (cache s)) (PrimFloat.infinity, []) s)
    as [[[m tied]|e] s1] eqn:Es; simpl in *; [|left; exact Hf].
  destruct tied as [|k0 tied']; [left; exact Hf|].
  destruct (max_by_last_effect V (k0 :: tied') s1) as [Hms Hmr].
  destruct (max_by_last V (k0 :: tied') s1) as [[x|e] s2] eqn:Em; simpl in *;
    subst s2; [|left; exact Hf].
  assert (Hx : Dict.mem x (cache s) = true).
  { destruct (Hr _ eq_refl x (Hmr x eq_refl)) as [Hin | []].
    apply in_keys_mem, Hin. }
  unfold cache_delitem, modify.
  assert (Hx1 : Dict.mem x (cache s1) = true).
  { destruct Hf as (_ & Hc & _). rewrite Hc. exact Hx. }
  rewrite Hx1. right. exists x, s1. split; [exact Hx|]. split; [exact Hf|].
  reflexivity.
Qed.

Lemma evict_raise_zero t loc (s : St) e :
  Inv2 s -> fst (evict t loc s) = Raise e -> e = ZeroDivisionError.
Proof.
  intros [H1 _]. unfold TLCA.evict, bind, gets.
  assert (Hks : forall k, In k (Dict.keys (cache s)) ->
            Dict.mem k (cache s) = true /\ Dict.mem k (last_access s) = true).
  { intros k Hk. pose proof (in_keys_mem k _ Hk). auto. }
  pose proof (scan_raise_zero t loc (Dict.keys (cache s)) (PrimFloat.infinity, []) s)
    as Hz.
  destruct (scan_effect V clock hour_of t loc (Dict.keys (cache s))
              (PrimFloat.infinity, []) s (fun k Hk => in_keys_mem k _ Hk)) as [Hf Hr].
  destruct (scan V clock hour_of t loc (Dict.keys (cache s)) (PrimFloat.infinity, []) s)
    as [[[m tied]|e'] s1]; simpl in *.
  2:{ intros H. injection H as <-. exact (Hz e' Hks eq_refl). }
  destruct tied as [|k0 tied']; [discriminate|].
  destruct Hf as (_ & F2 & F3 & _).
  assert (Htied : forall k, In k (k0 :: tied') -> Dict.mem k (last_access s1) = true).
  { intros k Hk. rewrite F3. destruct (Hr _ eq_refl k Hk) as [Hin | []].
    apply (Hks k Hin). }
  destruct (max_by_last_effect V (k0 :: tied') s1) as [Hms Hmr].
  assert (Hok : exists x, fst (max_by_last V (k0 :: tied') s1) = Ok x).
  { simpl. unfold bind, last_getitem.
    assert (Hk0 := Htied k0 (or_introl eq_refl)). unfold Dict.mem in Hk0.
    destruct (Dict.get k0 (last_access s1)) as [v|]; [|discriminate]. simpl.
    apply max_from_ok. intros k Hk. apply Htied. now right. }
  destruct (max_by_last V (k0 :: tied') s1) as [[x|e'] s2]; simpl in *;
    [|destruct Hok as [? Hok]; discriminate].
  subst s2. unfold cache_delitem, modify.
  assert (Hx : Dict.mem x (cache s1) = true).
  { rewrite F2. destruct (Hr _ eq_refl x (Hmr x eq_refl)) as [Hin | []].
    apply in_keys_mem, Hin. }
  rewrite Hx. discriminate.
Qed.

Lemma get_result_present k v ins t loc (s : St) :
  Dict.get k (cache s) = Some (v, ins) -> fst (get k t loc s) = Ok (Some v).
Proof.
  intros Hget.
  assert (Hmem : Dict.mem k (cache s) = true) by (unfold Dict.mem; now rewrite Hget).
  unfold TLCA.get, freq_incr, freq_getitem, bind, gets, time_time, modify, ret.
  rewrite Hmem.
  destruct (Dict.get k (access_freq s)); simpl; rewrite Hget; reflexivity.
Qed.

(** *** Extra properties *)

(** In every reachable state the three dictionaries [cache], [access_freq]
    and [last_access] hold exactly the same keys. *)
Theorem dicts_share_keys (s : St) :
  reachable s ->
  forall k, Dict.mem k (access_freq s) = Dict.mem k (cache s) /\
            Dict.mem k (last_access s) = Dict.mem k (cache s).
Proof.
  intros Hr k. destruct (reachable_Inv V clock hour_of s Hr) as [H1 H2].
  destruct (Inv2_reachable s Hr) as [G1 _].
  destruct (Dict.mem k (cache s)) eqn:E.
  - split; [|apply G1, E].
    specialize (H1 k E). unfold freq_of in H1. unfold Dict.mem.
    destruct (Dict.get k (access_freq s)); [reflexivity | lia].
  - destruct (H2 k E) as [Hf Hl]. unfold Dict.mem. rewrite Hf, Hl. split; reflexivity.
Qed.


(** From a reachable state, [evict] either leaves the cache and every
    frequency and last-access time as they were, or returns after deleting
    exactly one cached key from all three dictionaries: the cache is the old
    one with that key filtered out (the other keys in their order), one key
    shorter, and no other key's frequency or last-access time changes. *)
Theorem evict_removes_at_most_one (s : St) t loc :
  reachable s ->
  (cache (snd (evict t loc s)) = cache s /\
   forall k, freq_of k (snd (evict t loc s)) = freq_of k s /\
             Dict.get k (last_access (snd (evict t loc s))) = Dict.get k (last_access s)) \/
  (exists x,
     Dict.mem x (cache s) = true /\
     fst (evict t loc s) = Ok tt /\
     cache (snd (evict t loc s)) = Dict.del x (cache s) /\
     S (List.length (cache (snd (evict t loc s)))) = List.length (cache s) /\
     Dict.mem x (access_freq (snd (evict t loc s))) = false /\
     Dict.mem x (last_access (snd (evict t loc s))) = false /\
     forall k, k <> x ->
       freq_of k (snd (evict t loc s)) = freq_of k s /\
       Dict.get k (last_access (snd (evict t loc s))) = Dict.get k (last_access s)).
Proof.
  intros Hr. pose proof (proj2 (Inv2_reachable s Hr)) as Hnd.
  destruct (evict_cases t loc s) as [Hf | (x & s1 & Hx & Hf & He)].
  - left. destruct Hf as (_ & F2 & F3 & F4 & _). rewrite F2, F3. split; [reflexivity|].
    intros k. split; [apply F4 | reflexivity].
  - right. exists x. rewrite He. simpl.
    destruct Hf as (_ & F2 & F3 & F4 & _).
    split; [exact Hx|]. split; [reflexivity|]. rewrite F2. split; [reflexivity|].
    split; [apply length_del_mem; assumption|].
    split; [unfold Dict.mem; rewrite get_del_same; reflexivity|].
    split; [unfold Dict.mem; rewrite get_del_same; reflexivity|].
    intros k Hne. pose proof (F4 k) as F. unfold freq_of in F |- *.
    unfold remove_key. cbn [access_freq last_access].
    rewrite !get_del_other by exact Hne. rewrite F3. split; [exact F | reflexivity].
Qed.

Lemma length_set {A} k (v : A) d :
  List.length (Dict.set k v d) = (List.length d + if Dict.mem k d then 0 else 1)%nat.
Proof.
  rewrite <- !(length_map fst (Dict.set k v d)), <- (length_map fst d).
  destruct (Dict.mem k d) eqn:E.
  - fold (Dict.keys (Dict.set k v d)) (Dict.keys d). rewrite keys_set_mem by exact E. lia.
  - fold (Dict.keys (Dict.set k v d)) (Dict.keys d). rewrite keys_set_new by exact E.
    rewrite length_app. reflexivity.
Qed.

(** From a reachable state, [put] never shrinks the cache and grows it by at
    most one key, whether it returns or raises. *)
Theorem put_size_step (s : St) k v t loc :
  reachable s ->
  (List.length (cache s) <= List.length (cache (snd (put k v t loc s))) <=
   S (List.length (cache s)))%nat.
Proof.
  intros Hr. pose proof (proj2 (Inv2_reachable s Hr)) as Hnd.
  rewrite put_unfold.
  destruct (negb (Dict.mem k (cache s))
            && (capacity (cfg s) <=? Z.of_nat (List.length (cache s)))) eqn:C.
  - apply andb_prop in C. destruct C as [C _]. apply negb_true_iff in C.
    destruct (evict_cases t loc s) as [Hf | (x & s1 & Hx & Hf & He)].
    + destruct (evict t loc s) as [[u|e] s1]; simpl in Hf |- *;
        destruct Hf as (_ & F2 & _).
      * rewrite put_store_effect. simpl. rewrite length_set, F2, C. lia.
      * rewrite F2. lia.
    + rewrite He. rewrite put_store_effect. simpl.
      destruct Hf as (_ & F2 & _). rewrite length_set. rewrite F2.
      assert (Hk : Dict.mem k (Dict.del x (cache s)) = false).
      { unfold Dict.mem in C |- *. destruct (String.eqb k x) eqn:E.
        - apply String.eqb_eq in E. subst. rewrite get_del_same. reflexivity.
        - apply String.eqb_neq in E. rewrite get_del_other by exact E. exact C. }
      rewrite Hk. pose proof (length_del_mem x (cache s) Hnd Hx). lia.
  - rewrite put_store_effect. simpl. rewrite length_set.
    destruct (Dict.mem k (cache s)); lia.
Qed.

(** From a reachable state, [evict] and [put] can raise only
    [ZeroDivisionError] (never [KeyError] or [ValueError]), and [get] never
    raises. *)
Theorem only_zero_division_raised (s : St) k v t loc :
  reachable s ->
  (forall e, fst (evict t loc s) = Raise e -> e = ZeroDivisionError) /\
  (forall e, fst (put k v t loc s) = Raise e -> e = ZeroDivisionError) /\
  (exists r, fst (get k t loc s) = Ok r).
Proof.
  intros Hr. pose proof (Inv2_reachable s Hr) as HI.
  split; [intros e; apply evict_raise_zero, HI|]. split.
  - intros e. rewrite put_unfold.
    pose proof (evict_raise_zero t loc s) as Hz.
    destruct (negb (Dict.mem k (cache s))
              && (capacity (cfg s) <=? Z.of_nat (List.length (cache s)))).
    + destruct (evict t loc s) as [[u|e'] s1]; simpl in Hz.
      * rewrite put_store_effect. discriminate.
      * intros H. injection H as <-. exact (Hz e' HI eq_refl).
    + rewrite put_store_effect. discriminate.
  - destruct (Dict.get k (cache s)) as [[v0 ins]|] eqn:E.
    + exists (Some v0). apply (get_result_present k v0 ins), E.
    + exists None. unfold TLCA.get, bind, gets, ret, Dict.mem. rewrite E. reflexivity.
Qed.

(** A [put] that returns normally is seen by the next [get] of the same key,
    which returns the value just stored (from any state). *)
Theorem put_then_get (s : St) k v t loc t' loc' :
  fst (put k v t loc s) = Ok tt ->
  fst (get k t' loc' (snd (put k v t loc s))) = Ok (Some v).
Proof.
  rewrite put_unfold.
  destruct (if negb (Dict.mem k (cache s))
                && (capacity (cfg s) <=? Z.of_nat (List.length (cache s)))
             then evict t loc s else (Ok tt, s)) as [[u|e] s1]; [|discriminate].
  rewrite put_store_effect. intros _. simpl.
  apply (get_result_present k v (clock (tick s1))). simpl. apply get_set_same.
Qed.

(** A [put] of a new key into a cache below its capacity does not evict: it
    returns normally, appends the key at the end of [current_keys()], and
    leaves every other key's value, frequency and last-access time alone. *)
Theorem put_new_key_below_capacity (s : St) k v t loc :
  Dict.mem k (cache s) = false ->
  Z.of_nat (List.length (cache s)) < capacity (cfg s) ->
  fst (put k v t loc s) = Ok tt /\
  Dict.keys (cache (snd (put k v t loc s))) = Dict.keys (cache s) ++ [k] /\
  forall k', k' <> k ->
    Dict.get k' (cache (snd (put k v t loc s))) = Dict.get k' (cache s) /\
    freq_of k' (snd (put k v t loc s)) = freq_of k' s /\
    Dict.get k' (last_access (snd (put k v t loc s))) = Dict.get k' (last_access s).
Proof.
  intros Hk Hcap. rewrite put_unfold.
  replace (capacity (cfg s) <=? Z.of_nat (List.length (cache s))) with false
    by (symmetry; apply Z.leb_gt; lia).
  rewrite andb_false_r, put_store_effect. simpl.
  split; [reflexivity|]. split; [apply keys_set_new, Hk|].
  intros k' Hne. unfold freq_of. cbn [access_freq].
  rewrite !get_set_other by exact Hne. split; [reflexivity|]. split; [|reflexivity].
  unfold af_touch. destruct (Dict.get k (access_freq s)); [reflexivity|].
  rewrite get_app_other by exact Hne. reflexivity.
Qed.

(** From a reachable state, scoring a cached key changes nothing but the
    clock: the configuration and the three dictionaries are left as they
    were (no default entry is inserted). *)
Theorem compute_score_cached_read_only (s : St) k t loc :
  reachable s -> Dict.mem k (cache s) = true ->
  cfg (snd (compute_score k t loc s)) = cfg s /\
  cache (snd (compute_score k t loc s)) = cache s /\
  access_freq (snd (compute_score k t loc s)) = access_freq s /\
  last_access (snd (compute_score k t loc s)) = last_access s.
Proof.
  intros Hr Hk. destruct (compute_score_effect V clock hour_of k t loc s)
    as (E1 & E2 & E3 & E4).
  rewrite E1, E2, E3, E4. repeat split.
  unfold af_touch.
  pose proof (proj1 (reachable_Inv V clock hour_of s Hr) k Hk) as H1.
  unfold freq_of in H1. destruct (Dict.get k (access_freq s)); [reflexivity | lia].
Qed.

End MoreProperties.

(** ** Concrete instances of the extra properties *)
Module ExtraWitnesses.

Import Runs.
Local Open Scope string_scope.

(** [TLCA_ACR_Cache(2)] after [put("A", "a")]: one key below capacity. *)
Definition one_key : St string :=
  exec string clk hour_noon [OpPut string "A" "a" None None]
    (init string 2 1 1 1 1 1 0).

Lemma dicts_share_keys_witness :
  reachable string clk hour_noon near_tie /\
  (forall k, Dict.mem k (access_freq near_tie) = Dict.mem k (cache near_tie) /\
             Dict.mem k (last_access near_tie) = Dict.mem k (cache near_tie)).
Proof.
  assert (Hr : reachable string clk hour_noon near_tie).
  { exists 2, 8e-6%float, 0%float, 1%float, 1%float, 1%float, 0%nat,
      [OpPut string "A" "a" None None; OpPut string "B" "b" None None;
       OpGet string "A" None None]; reflexivity. }
  split; [exact Hr|].
  exact (dicts_share_keys string clk hour_noon near_tie Hr).
Defined.


Lemma evict_removes_at_most_one_witness :
  reachable string clk hour_noon near_tie /\
  ((cache (snd (evict string clk hour_noon None None near_tie)) = cache near_tie /\
    forall k, freq_of k (snd (evict string clk hour_noon None None near_tie))
                = freq_of k near_tie /\
              Dict.get k (last_access (snd (evict string clk hour_noon None None near_tie)))
                = Dict.get k (last_access near_tie)) \/
   (exists x,
      Dict.mem x (cache near_tie) = true /\
      fst (evict string clk hour_noon None None near_tie) = Ok tt /\
      cache (snd (evict string clk hour_noon None None near_tie))
        = Dict.del x (cache near_tie) /\
      S (List.length (cache (snd (evict string clk hour_noon None None near_tie))))
        = List.length (cache near_tie) /\
      Dict.mem x (access_freq (snd (evict string clk hour_noon None None near_tie)))
        = false /\
      Dict.mem x (last_access (snd (evict string clk hour_noon None None near_tie)))
        = false /\
      forall k, k <> x ->
        freq_of k (snd (evict string clk hour_noon None None near_tie))
          = freq_of k near_tie /\
        Dict.get k (last_access (snd (evict string clk hour_noon None None near_tie)))
          = Dict.get k (last_access near_tie))).
Proof.
  assert (Hr : reachable string clk hour_noon near_tie).
  { exists 2, 8e-6%float, 0%float, 1%float, 1%float, 1%float, 0%nat,
      [OpPut string "A" "a" None None; OpPut string "B" "b" None None;
       OpGet string "A" None None]; reflexivity. }
  split; [exact Hr|].
  exact (evict_removes_at_most_one string clk hour_noon near_tie None None Hr).
Defined.

Lemma put_size_step_witness :
  reachable string clk hour_noon near_tie /\
  (List.length (cache near_tie)
     <= List.length (cache (snd (put string clk hour_noon "C" "c" None None near_tie)))
     <= S (List.length (cache near_tie)))%nat.
Proof.
  assert (Hr : reachable string clk hour_noon near_tie).
  { exists 2, 8e-6%float, 0%float, 1%float, 1%float, 1%float, 0%nat,
      [OpPut string "A" "a" None None; OpPut string "B" "b" None None;
       OpGet string "A" None None]; reflexivity. }
  split; [exact Hr|].
  exact (put_size_step string clk hour_noon near_tie "C" "c" None None Hr).
Defined.

Lemma only_zero_division_raised_witness :
  reachable string clk hour_noon near_tie /\
  ((forall e, fst (evict string clk hour_noon None None near_tie) = Raise e ->
              e = ZeroDivisionError) /\
   (forall e, fst (put string clk hour_noon "C" "c" None None near_tie) = Raise e ->
              e = ZeroDivisionError) /\
   (exists r, fst (get string clk "C" None None near_tie) = Ok r)).
Proof.
  assert (Hr : reachable string clk hour_noon near_tie).
  { exists 2, 8e-6%float, 0%float, 1%float, 1%float, 1%float, 0%nat,
      [OpPut string "A" "a" None None; OpPut string "B" "b" None None;
       OpGet string "A" None None]; reflexivity. }
  split; [exact Hr|].
  exact (only_zero_division_raised string clk hour_noon near_tie "C" "c" None None Hr).
Defined.

Lemma put_then_get_witness :
  fst (put string clk hour_noon "C" "c" None None near_tie) = Ok tt /\
  fst (get string clk "C" None None
         (snd (put string clk hour_noon "C" "c" None None near_tie))) = Ok (Some "c").
Proof.
  assert (H : fst (put string clk hour_noon "C" "c" None None near_tie) = Ok tt)
    by (vm_compute; reflexivity).
  split; [exact H|].
  exact (put_then_get string clk hour_noon near_tie "C" "c" None None None None H).
Defined.

Lemma put_new_key_below_capacity_witness :
  Dict.mem "B" (cache one_key) = false /\
  Z.of_nat (List.length (cache one_key)) < capacity (cfg one_key) /\
  (fst (put string clk hour_noon "B" "b" None None one_key) = Ok tt /\
   Dict.keys (cache (snd (put string clk hour_noon "B" "b" None None one_key)))
     = (Dict.keys (cache one_key) ++ ["B"])%list /\
   forall k', k' <> "B" ->
     Dict.get k' (cache (snd (put string clk hour_noon "B" "b" None None one_key)))
       = Dict.get k' (cache one_key) /\
     freq_of k' (snd (put string clk hour_noon "B" "b" None None one_key))
       = freq_of k' one_key /\
     Dict.get k' (last_access (snd (put string clk hour_noon "B" "b" None None one_key)))
       = Dict.get k' (last_access one_key)).
Proof.
  assert (H1 : Dict.mem "B" (cache one_key) = false) by (vm_compute; reflexivity).
  assert (H2 : Z.of_nat (List.length (cache one_key)) < capacity (cfg one_key))
    by (vm_compute; reflexivity).
  split; [exact H1|]. split; [exact H2|].
  exact (put_new_key_below_capacity string clk hour_noon one_key "B" "b" None None H1 H2).
Defined.

Lemma compute_score_cached_read_only_witness :
  reachable string clk hour_noon near_tie /\
  Dict.mem "A" (cache near_tie) = true /\
  (cfg (snd (compute_score string clk hour_noon "A" None None near_tie)) = cfg near_tie /\
   cache (snd (compute_score string clk hour_noon "A" None None near_tie)) = cache near_tie /\
   access_freq (snd (compute_score string clk hour_noon "A" None None near_tie))
     = access_freq near_tie /\
   last_access (snd (compute_score string clk hour_noon "A" None None near_tie))
     = last_access near_tie).
Proof.
  assert (Hr : reachable string clk hour_noon near_tie).
  { exists 2, 8e-6%float, 0%float, 1%float, 1%float, 1%float, 0%nat,
      [OpPut string "A" "a" None None; OpPut string "B" "b" None None;
       OpGet string "A" None None]; reflexivity. }
  assert (Hk : Dict.mem "A" (cache near_tie) = true) by (vm_compute; reflexivity).
  split; [exact Hr|]. split; [exact Hk|].
  exact (compute_score_cached_read_only string clk hour_noon near_tie "A" None None Hr Hk).
Defined.

End ExtraWitnesses.
